(** * Super layers of torchquantum (torchquantum/super_layers.py)

    A shallow embedding of [get_combs] and of the five super-layer classes
    [Super1QLayer], [Super2QLayer], [Super1QShareFrontLayer],
    [Super1QSingleWireLayer] and [Super1QAllButOneLayer]: their [forward]
    methods and their [arch_space] properties.

    The gate library and the quantum device are external to the module: a
    gate instance is an opaque identity ([gate]), the device is an opaque
    handle ([device]), and a call [self.ops_all[k](q_device, wires=...)] is
    recorded as an [event] in the trace of gate applications that [forward]
    performs on the device.  The method bodies are modelled; the
    [tq.static_support] decorator belongs to the external library. *)

From Stdlib Require Import List Arith Lia ZArith Bool Sorted.
Import ListNotations.
Set Warnings "-register-all".

(** ** Python values used as selectors *)

(** The values a [sample_arch] takes here: [None], an [int], a [tuple], a
    [list] or a [set] (the elements of a [set] in order of iteration). *)
Inductive pyval : Type :=
| PNone : pyval
| PInt : Z -> pyval
| PTuple : list pyval -> pyval
| PList : list pyval -> pyval
| PSet : list pyval -> pyval.

(** Python's [==] on these values: a list never equals a tuple. *)
Fixpoint py_eqb (v w : pyval) {struct v} : bool :=
  match v, w with
  | PNone, PNone => true
  | PInt a, PInt b => Z.eqb a b
  | PTuple xs, PTuple ys =>
      (fix seq_eqb (xs ys : list pyval) : bool :=
         match xs, ys with
         | [], [] => true
         | x :: xs', y :: ys' => py_eqb x y && seq_eqb xs' ys'
         | _, _ => false
         end) xs ys
  | PList xs, PList ys =>
      (fix seq_eqb (xs ys : list pyval) : bool :=
         match xs, ys with
         | [], [] => true
         | x :: xs', y :: ys' => py_eqb x y && seq_eqb xs' ys'
         | _, _ => false
         end) xs ys
  | PSet xs, PSet ys =>
      forallb (fun x => existsb (py_eqb x) ys) xs &&
      forallb (fun y => existsb (fun x => py_eqb x y) xs) ys
  | _, _ => false
  end.

(** [hash(v)] succeeds: a [list] or a [set] is unhashable, a [tuple] is
    hashable when its items are. *)
Fixpoint py_hashable (v : pyval) : bool :=
  match v with
  | PNone | PInt _ => true
  | PTuple vs => forallb py_hashable vs
  | PList _ | PSet _ => false
  end.

(** Exceptions raised by the code. *)
Inductive exn : Type :=
| TypeError : exn
| ValueError : exn
| IndexError : exn.

Inductive result (A : Type) : Type :=
| Ok : A -> result A
| Err : exn -> result A.
Arguments Ok {A} _.
Arguments Err {A} _.

Definition bind {A B : Type} (r : result A) (f : A -> result B) : result B :=
  match r with
  | Ok a => f a
  | Err e => Err e
  end.

Notation "'let*' x := r 'in' f" := (bind r (fun x => f))
  (at level 200, x name, r at level 100, f at level 200).

(** [x in c]: a membership test in a tuple or list compares with [==]; in a
    set it first hashes [x] ([TypeError] for an unhashable [x]), then
    compares with [==]; on [None] or an [int] it raises [TypeError]. *)
Definition py_in (x c : pyval) : result bool :=
  match c with
  | PTuple vs | PList vs => Ok (existsb (py_eqb x) vs)
  | PSet vs => if py_hashable x then Ok (existsb (py_eqb x) vs) else Err TypeError
  | _ => Err TypeError
  end.

(** [k < v] for an [int] [k]: only defined against an [int]. *)
Definition py_lt_int (k : Z) (v : pyval) : result bool :=
  match v with
  | PInt z => Ok (Z.ltb k z)
  | _ => Err TypeError
  end.

Definition py_int (k : nat) : pyval := PInt (Z.of_nat k).

(** [list(range(a, b))] *)
Definition py_range (a b : Z) : list Z :=
  map (fun i => (a + Z.of_nat i)%Z) (seq 0 (Z.to_nat (b - a))).

(** ** [get_combs] *)

(** [itertools.combinations(l, r)] for [r >= 0], tuples as lists, in the
    order itertools produces them. *)
Fixpoint combinations {A : Type} (l : list A) (r : nat) : list (list A) :=
  match l, r with
  | _, 0 => [[]]
  | [], S _ => []
  | x :: xs, S r' => map (cons x) (combinations xs r') ++ combinations xs (S r')
  end.

(** [itertools.combinations] with a Python [int]: negative [r] raises. *)
Definition py_combinations {A : Type} (l : list A) (r : Z) : result (list (list A)) :=
  if Z.ltb r 0 then Err ValueError else Ok (combinations l (Z.to_nat r)).

(** The argument [n] of [get_combs]: [None], an [int] or an iterable. *)
Inductive sizes : Type :=
| SizesNone : sizes
| SizesInt : Z -> sizes
| SizesIter : list Z -> sizes.

(** [for k in ks: all_combs.extend(list(itertools.combinations(inset, k)))] *)
Fixpoint extend_combs {A : Type} (inset : list A) (ks : list Z) (acc : list (list A))
  : result (list (list A)) :=
  match ks with
  | [] => Ok acc
  | k :: ks' =>
      let* cs := py_combinations inset k in
      extend_combs inset ks' (acc ++ cs)
  end.

Definition get_combs {A : Type} (inset : list A) (n : sizes) : result (list (list A)) :=
  match n with
  | SizesNone =>
      extend_combs inset (map Z.of_nat (seq 1 (length inset))) []
  | SizesInt r => extend_combs inset [r] []
  | SizesIter ks => extend_combs inset ks []
  end.

(** ** Super layers *)

(** Opaque identities of gate instances and of the device object. *)
Definition gate := nat.
Definition device := nat.

(** The [wires=] argument of a gate call: an [int] or a list of wires. *)
Inductive wires_arg : Type :=
| WInt : nat -> wires_arg
| WList : list nat -> wires_arg.

(** One call [self.ops_all[k](q_device, wires=w)]: the instance called and
    its wires. *)
Definition event : Type := (gate * wires_arg)%type.

Inductive layer_kind : Type :=
| Super1QLayer
| Super2QLayer
| Super1QShareFrontLayer
| Super1QSingleWireLayer
| Super1QAllButOneLayer.

(** The attributes of a layer object.  [wire_reverse] is read by
    [Super2QLayer] only, [n_front_share_wires] by [Super1QShareFrontLayer]
    only; [q_device] is the attribute [self.q_device], absent ([None]) until
    [Super1QShareFrontLayer.forward] assigns it. *)
Record layer : Type := mk_layer {
  kind : layer_kind;
  n_wires : nat;
  ops_all : list gate;
  wire_reverse : bool;
  n_front_share_wires : Z;
  sample_arch : pyval;
  q_device : option device
}.

(** The constructors: [SuperQuantumModule.__init__] sets [sample_arch = None];
    [for k in range(n_wires): self.ops_all.append(op(...))] creates one fresh
    instance per wire, numbered here by [k]. *)
Definition new_layer (k : layer_kind) (n : nat) (rev : bool) (nf : Z) : layer :=
  mk_layer k n (seq 0 n) rev nf PNone None.

Definition new_Super1QLayer (n : nat) : layer := new_layer Super1QLayer n false 0.
Definition new_Super2QLayer (n : nat) (wire_reverse : bool) : layer :=
  new_layer Super2QLayer n wire_reverse 0.
Definition new_Super1QShareFrontLayer (n : nat) (nf : Z) : layer :=
  new_layer Super1QShareFrontLayer n false nf.
Definition new_Super1QSingleWireLayer (n : nat) : layer :=
  new_layer Super1QSingleWireLayer n false 0.
Definition new_Super1QAllButOneLayer (n : nat) : layer :=
  new_layer Super1QAllButOneLayer n false 0.

Definition set_sample_arch (st : layer) (v : pyval) : layer :=
  mk_layer (kind st) (n_wires st) (ops_all st) (wire_reverse st)
    (n_front_share_wires st) v (q_device st).

Definition set_q_device (st : layer) (d : device) : layer :=
  mk_layer (kind st) (n_wires st) (ops_all st) (wire_reverse st)
    (n_front_share_wires st) (sample_arch st) (Some d).

(** [self.ops_all[k](q_device, wires=w)]: list indexing raises [IndexError]
    out of range. *)
Definition call_op (st : layer) (k : nat) (w : wires_arg) : result event :=
  match nth_error (ops_all st) k with
  | Some g => Ok (g, w)
  | None => Err IndexError
  end.

(** [for k in ks: if test(k): call(k)]: the gate calls made, in order, and
    the exception that ended the loop, if any (calls made before it have
    already acted on the device). *)
Fixpoint run_loop (test : nat -> result bool) (call : nat -> result event)
  (ks : list nat) : list event * option exn :=
  match ks with
  | [] => ([], None)
  | k :: ks' =>
      match test k with
      | Err e => ([], Some e)
      | Ok false => run_loop test call ks'
      | Ok true =>
          match call k with
          | Err e => ([], Some e)
          | Ok ev => let (evs, e) := run_loop test call ks' in (ev :: evs, e)
          end
      end
  end.

(** [sorted([a, b], reverse=rev)] (stable) *)
Definition sorted_pair (rev : bool) (a b : nat) : list nat :=
  if rev then (if Nat.ltb a b then [b; a] else [a; b])
  else (if Nat.ltb b a then [b; a] else [a; b]).

(** [Super1QLayer.forward] *)
Definition forward_Super1QLayer (st : layer) : list event * option exn :=
  run_loop (fun k => py_in (py_int k) (sample_arch st))
    (fun k => call_op st k (WInt k)) (seq 0 (n_wires st)).

(** [Super2QLayer.forward] *)
Definition forward_Super2QLayer (st : layer) : list event * option exn :=
  let n := n_wires st in
  run_loop
    (fun k =>
       let j := Nat.modulo (k + 1) n in
       let* b := py_in (PList [py_int k; py_int j]) (sample_arch st) in
       if b then Ok true else py_in (PList [py_int j; py_int k]) (sample_arch st))
    (fun k => call_op st k (WList (sorted_pair (wire_reverse st) k (Nat.modulo (k + 1) n))))
    (seq 0 n).

(** [Super1QShareFrontLayer.forward], after its [self.q_device = q_device] *)
Definition forward_Super1QShareFrontLayer (st : layer) : list event * option exn :=
  run_loop (fun k => py_lt_int (Z.of_nat k) (sample_arch st))
    (fun k => call_op st k (WInt k)) (seq 0 (n_wires st)).

(** [Super1QSingleWireLayer.forward] *)
Definition forward_Super1QSingleWireLayer (st : layer) : list event * option exn :=
  run_loop (fun k => Ok (py_eqb (py_int k) (sample_arch st)))
    (fun k => call_op st k (WInt k)) (seq 0 (n_wires st)).

(** [Super1QAllButOneLayer.forward] *)
Definition forward_Super1QAllButOneLayer (st : layer) : list event * option exn :=
  run_loop (fun k => Ok (negb (py_eqb (py_int k) (sample_arch st))))
    (fun k => call_op st k (WInt k)) (seq 0 (n_wires st)).

(** [layer.forward(q_device)]: the layer object afterwards, and the calls
    made on the device with the exception raised, if any. *)
Definition forward (st : layer) (dev : device) : layer * (list event * option exn) :=
  match kind st with
  | Super1QLayer => (st, forward_Super1QLayer st)
  | Super2QLayer => (st, forward_Super2QLayer st)
  | Super1QShareFrontLayer =>
      let st' := set_q_device st dev in (st', forward_Super1QShareFrontLayer st')
  | Super1QSingleWireLayer => (st, forward_Super1QSingleWireLayer st)
  | Super1QAllButOneLayer => (st, forward_Super1QAllButOneLayer st)
  end.

(** [arch_space] properties *)
Definition arch_space_Super1QLayer (st : layer) : result (list (list nat)) :=
  get_combs (seq 0 (n_wires st)) SizesNone.

Definition arch_space_Super2QLayer (st : layer) : result (list (list (list nat))) :=
  get_combs (combinations (seq 0 (n_wires st)) 2) SizesNone.

Definition arch_space_Super1QShareFrontLayer (st : layer) : list Z :=
  py_range (n_front_share_wires st) (Z.of_nat (n_wires st) + 1).

Definition arch_space_Super1QSingleWireLayer (st : layer) : list nat :=
  seq 0 (n_wires st).

Definition arch_space_Super1QAllButOneLayer (st : layer) : list nat :=
  seq 0 (n_wires st).

(** A selector of [Super1QLayer.arch_space] as the Python value: a tuple of
    ints; one of [Super2QLayer.arch_space]: a tuple of 2-tuples of ints. *)
Definition py_of_subset (c : list nat) : pyval := PTuple (map py_int c).
Definition py_of_pairs (c : list (list nat)) : pyval := PTuple (map py_of_subset c).

(** The binomial coefficient, by Pascal's rule. *)
Fixpoint binom (n k : nat) : nat :=
  match n, k with
  | _, 0 => 1
  | 0, S _ => 0
  | S n', S k' => binom n' k' + binom n' (S k')
  end.

Example get_combs_012 :
  get_combs [0; 1; 2] SizesNone = Ok [[0]; [1]; [2]; [0; 1]; [0; 2]; [1; 2]; [0; 1; 2]].
Proof. reflexivity. Qed.

Example get_combs_012_2 : get_combs [0; 1; 2] (SizesInt 2) = Ok [[0; 1]; [0; 2]; [1; 2]].
Proof. reflexivity. Qed.

Example arch_space_share_front_5_2 :
  arch_space_Super1QShareFrontLayer (new_Super1QShareFrontLayer 5 2) = [2; 3; 4; 5]%Z.
Proof. reflexivity. Qed.

Example all_but_one_4_2 :
  forward_Super1QAllButOneLayer (set_sample_arch (new_Super1QAllButOneLayer 4) (PInt 2))
  = ([(0, WInt 0); (1, WInt 1); (3, WInt 3)], None).
Proof. reflexivity. Qed.

Example super2q_lists :
  forward_Super2QLayer (set_sample_arch (new_Super2QLayer 3 true) (PList [PList [PInt 2; PInt 0]]))
  = ([(2, WList [2; 0])], None).
Proof. reflexivity. Qed.

(** The [wires=] argument [forward] passes with [ops_all[k]]. *)
Definition wires_of (k : layer_kind) (rev : bool) (n i : nat) : wires_arg :=
  match k with
  | Super2QLayer => WList (sorted_pair rev i (Nat.modulo (i + 1) n))
  | _ => WInt i
  end.

(** A gate call with its list of wires reversed. *)
Definition reverse_wires (ev : event) : event :=
  match ev with
  | (g, WList l) => (g, WList (rev l))
  | (g, WInt i) => (g, WInt i)
  end.

(** ** Lemmas on [combinations] and [get_combs] *)

(** [t] is a subsequence of [l]: what a tuple of [itertools.combinations]
    is, relative to its input. *)
Inductive subseq {A : Type} : list A -> list A -> Prop :=
| subseq_nil : subseq [] []
| subseq_skip x t l : subseq t l -> subseq t (x :: l)
| subseq_take x t l : subseq t l -> subseq (x :: t) (x :: l).

(** The [n is None] branch of [get_combs], as a list. *)
Definition all_combs {A : Type} (l : list A) : list (list A) :=
  flat_map (combinations l) (seq 1 (length l)).

(** Lexicographic order on tuples of indices, as Python compares tuples. *)
Fixpoint lex_lt (a b : list nat) : Prop :=
  match a, b with
  | [], _ :: _ => True
  | x :: a', y :: b' => x < y \/ (x = y /\ lex_lt a' b')
  | _, _ => False
  end.

(** Shorter tuples first, then lexicographic. *)
Definition size_lex_lt (a b : list nat) : Prop :=
  length a < length b \/ (length a = length b /\ lex_lt a b).

Section Combinations.
Context {A : Type}.

Lemma combinations_0 (l : list A) : combinations l 0 = [[]].
Proof. destruct l; reflexivity. Qed.

Lemma subseq_nil_l (l : list A) : subseq [] l.
Proof. induction l; constructor; assumption. Qed.

Lemma subseq_incl (t l : list A) : subseq t l -> incl t l.
Proof.
  induction 1; intros y Hy.
  - exact Hy.
  - right. apply IHsubseq, Hy.
  - destruct Hy as [<- | Hy]; [left; reflexivity | right; apply IHsubseq, Hy].
Qed.

Lemma subseq_length (t l : list A) : subseq t l -> length t <= length l.
Proof. induction 1; simpl; lia. Qed.

Lemma subseq_singleton (x : A) (l : list A) : In x l -> subseq [x] l.
Proof.
  induction l as [|y l IH]; [contradiction|].
  intros [-> | H].
  - apply subseq_take, subseq_nil_l.
  - apply subseq_skip, IH, H.
Qed.

Lemma in_combinations (l : list A) (r : nat) (c : list A) :
  In c (combinations l r) <-> subseq c l /\ length c = r.
Proof.
  revert r c. induction l as [|x xs IH]; intros r c.
  - destruct r; simpl; split.
    + intros [<- | []]. split; [constructor | reflexivity].
    + intros [Hs Hl]. destruct c; [left; reflexivity | discriminate].
    + intros [].
    + intros [Hs Hl]. inversion Hs; subst. discriminate.
  - destruct r as [|r]; simpl.
    + split.
      * intros [<- | []]. split; [apply subseq_nil_l | reflexivity].
      * intros [_ Hl]. destruct c; [left; reflexivity | discriminate].
    + rewrite in_app_iff, in_map_iff. split.
      * intros [[c' [<- Hc']] | Hc].
        -- apply IH in Hc' as [Hs Hl]. split; [apply subseq_take, Hs | simpl; lia].
        -- apply IH in Hc as [Hs Hl]. split; [apply subseq_skip, Hs | exact Hl].
      * intros [Hs Hl]. inversion Hs; subst.
        -- right. apply IH. split; assumption.
        -- left. exists t. split; [reflexivity|]. apply IH. split; [assumption|].
           simpl in Hl. lia.
Qed.

Lemma combinations_length (l : list A) (r : nat) :
  length (combinations l r) = binom (length l) r.
Proof.
  revert r. induction l as [|x xs IH]; intros [|r]; simpl; try reflexivity.
  rewrite length_app, length_map, !IH. reflexivity.
Qed.

Lemma combinations_too_long (l : list A) (r : nat) :
  length l < r -> combinations l r = [].
Proof.
  intros H. destruct (combinations l r) as [|c cs] eqn:E; [reflexivity|].
  assert (Hc : In c (combinations l r)) by (rewrite E; left; reflexivity).
  apply in_combinations in Hc as [Hs Hl]. apply subseq_length in Hs. lia.
Qed.

Lemma combinations_map {B : Type} (f : A -> B) (l : list A) (r : nat) :
  combinations (map f l) r = map (map f) (combinations l r).
Proof.
  revert r. induction l as [|x xs IH]; intros [|r]; simpl; try reflexivity.
  rewrite !IH, map_app, !map_map. reflexivity.
Qed.

Lemma extend_combs_nat (l : list A) (ns : list nat) (acc : list (list A)) :
  extend_combs l (map Z.of_nat ns) acc = Ok (acc ++ flat_map (combinations l) ns).
Proof.
  revert acc. induction ns as [|k ns IH]; intros acc; simpl.
  - rewrite app_nil_r. reflexivity.
  - unfold py_combinations.
    replace (Z.ltb (Z.of_nat k) 0) with false by (symmetry; apply Z.ltb_ge; lia).
    simpl. rewrite IH, Nat2Z.id, app_assoc. reflexivity.
Qed.

Lemma get_combs_None (l : list A) : get_combs l SizesNone = Ok (all_combs l).
Proof. unfold get_combs, all_combs. rewrite extend_combs_nat. reflexivity. Qed.

End Combinations.

Lemma list_sum_map_add (f g : nat -> nat) (ks : list nat) :
  list_sum (map (fun k => f k + g k) ks) = list_sum (map f ks) + list_sum (map g ks).
Proof. induction ks as [|k ks IH]; simpl; [reflexivity | rewrite IH; lia]. Qed.

Lemma length_flat_map' {A B : Type} (f : A -> list B) (l : list A) :
  length (flat_map f l) = list_sum (map (fun x => length (f x)) l).
Proof. induction l as [|x l IH]; simpl; [reflexivity | rewrite length_app, IH; reflexivity]. Qed.

Section Counting.
Context {A : Type}.

(** Number of tuples of sizes [1..m]. *)
Definition count_upto (l : list A) (m : nat) : nat :=
  list_sum (map (fun k => length (combinations l (S k))) (seq 0 m)).

Lemma count_upto_nil (m : nat) : count_upto [] m = 0.
Proof.
  unfold count_upto. induction (seq 0 m) as [|k ks IH]; simpl; [reflexivity | exact IH].
Qed.

Lemma count_upto_cons (x : A) (xs : list A) (m : nat) :
  count_upto (x :: xs) (S m) = 1 + count_upto xs m + count_upto xs (S m).
Proof.
  unfold count_upto.
  transitivity (list_sum (map (fun k => length (combinations xs k) + length (combinations xs (S k)))
                  (seq 0 (S m)))).
  - f_equal. apply map_ext. intros k. simpl. rewrite length_app, length_map. reflexivity.
  - rewrite list_sum_map_add. f_equal.
    cbn [seq map list_sum]. rewrite combinations_0. simpl length.
    rewrite <- seq_shift, map_map. reflexivity.
Qed.

Lemma count_upto_full (l : list A) (m : nat) :
  length l <= m -> count_upto l m = 2 ^ length l - 1.
Proof.
  revert m. induction l as [|x xs IH]; intros m Hm.
  - rewrite count_upto_nil. reflexivity.
  - simpl in Hm. destruct m as [|m]; [lia|].
    rewrite count_upto_cons, !IH by lia.
    simpl length. rewrite Nat.pow_succ_r'.
    assert (2 ^ length xs <> 0) by (apply Nat.pow_nonzero; lia). lia.
Qed.

Lemma all_combs_length (l : list A) : length (all_combs l) = 2 ^ length l - 1.
Proof.
  unfold all_combs. rewrite length_flat_map', <- seq_shift, map_map.
  apply count_upto_full. lia.
Qed.

Lemma NoDup_map_cons (x : A) (cs : list (list A)) : NoDup cs -> NoDup (map (cons x) cs).
Proof.
  induction 1 as [|c cs Hc Hcs IH]; simpl; constructor; [|exact IH].
  rewrite in_map_iff. intros [c' [Heq Hin]]. injection Heq as ->. contradiction.
Qed.

Lemma combinations_NoDup (l : list A) (r : nat) : NoDup l -> NoDup (combinations l r).
Proof.
  revert r. induction l as [|x xs IH]; intros [|r] Hl; simpl.
  - repeat constructor. intros [].
  - constructor.
  - repeat constructor. intros [].
  - apply NoDup_cons_iff in Hl as [Hx Hxs]. apply NoDup_app.
    + apply NoDup_map_cons, IH, Hxs.
    + apply IH, Hxs.
    + intros c Hc Hc'. apply in_map_iff in Hc as [c' [<- _]].
      apply in_combinations in Hc' as [Hs _].
      apply Hx, (subseq_incl _ _ Hs). left. reflexivity.
Qed.

Lemma flat_map_combinations_NoDup (l : list A) (ks : list nat) :
  NoDup l -> NoDup ks -> NoDup (flat_map (combinations l) ks).
Proof.
  intros Hl. induction 1 as [|k ks Hk Hks IH]; simpl; [constructor|].
  apply NoDup_app; [apply combinations_NoDup, Hl | exact IH|].
  intros c Hc Hc'. apply in_flat_map in Hc' as [k' [Hk' Hc']].
  apply in_combinations in Hc as [_ <-]. apply in_combinations in Hc' as [_ Hl'].
  apply Hk. rewrite Hl'. exact Hk'.
Qed.

Lemma subseq_StronglySorted (R : A -> A -> Prop) (t l : list A) :
  subseq t l -> StronglySorted R l -> StronglySorted R t.
Proof.
  induction 1 as [| x t l Hs IH | x t l Hs IH]; intros HS.
  - constructor.
  - apply StronglySorted_inv in HS as [HS _]. apply IH, HS.
  - apply StronglySorted_inv in HS as [HS HF]. constructor; [apply IH, HS|].
    rewrite Forall_forall in *. intros y Hy. apply HF, (subseq_incl _ _ Hs), Hy.
Qed.

Lemma StronglySorted_app (R : A -> A -> Prop) (l1 l2 : list A) :
  StronglySorted R l1 -> StronglySorted R l2 ->
  (forall a b, In a l1 -> In b l2 -> R a b) -> StronglySorted R (l1 ++ l2).
Proof.
  induction 1 as [|a l1 HS IH HF]; intros H2 Hc; simpl; [exact H2|].
  constructor.
  - apply IH; [exact H2|]. intros x y Hx Hy. apply Hc; [right|]; assumption.
  - apply Forall_app. split; [exact HF|]. apply Forall_forall. intros b Hb.
    apply Hc; [left; reflexivity | exact Hb].
Qed.

Lemma StronglySorted_weaken (R R' : A -> A -> Prop) (l : list A) :
  (forall a b, In a l -> In b l -> R a b -> R' a b) ->
  StronglySorted R l -> StronglySorted R' l.
Proof.
  intros H HS. induction HS as [|a l HS IH HF]; constructor.
  - apply IH. intros x y Hx Hy. apply H; right; assumption.
  - rewrite Forall_forall in *. intros y Hy.
    apply H; [left; reflexivity | right; exact Hy | apply HF, Hy].
Qed.

End Counting.

(** ** Tuples of wire indices *)

Lemma seq_StronglySorted (a n : nat) : StronglySorted lt (seq a n).
Proof.
  revert a. induction n as [|n IH]; intros a; simpl; constructor; [apply IH|].
  apply Forall_forall. intros x Hx. apply in_seq in Hx. lia.
Qed.

Lemma sorted_subseq_seq (s : list nat) (a m : nat) :
  StronglySorted lt s -> Forall (fun x => a <= x < a + m) s -> subseq s (seq a m).
Proof.
  revert s a. induction m as [|m IH]; intros s a HS HF.
  - destruct s as [|x s]; [constructor|]. inversion HF; subst. lia.
  - simpl. destruct s as [|x s]; [apply subseq_nil_l|].
    apply StronglySorted_inv in HS as [HS Hx]. inversion HF as [|? ? Hxr Hsr]; subst.
    destruct (Nat.eq_dec x a) as [-> | Hne].
    + apply subseq_take, IH; [exact HS|].
      rewrite Forall_forall in *. intros y Hy. specialize (Hx y Hy). specialize (Hsr y Hy). lia.
    + apply subseq_skip, IH; [constructor; assumption|].
      constructor; [simpl in *; lia|]. rewrite Forall_forall in *. intros y Hy.
      specialize (Hsr y Hy). specialize (Hx y Hy). simpl in *; lia.
Qed.

Lemma StronglySorted_lt_ext (a b : list nat) :
  StronglySorted lt a -> StronglySorted lt b -> (forall x, In x a <-> In x b) -> a = b.
Proof.
  revert b. induction a as [|x a IH]; intros b Ha Hb Hab.
  - destruct b as [|y b]; [reflexivity|]. exfalso. apply (Hab y). left. reflexivity.
  - destruct b as [|y b]; [exfalso; apply (Hab x); left; reflexivity|].
    apply StronglySorted_inv in Ha as [Ha Fa]. apply StronglySorted_inv in Hb as [Hb Fb].
    rewrite Forall_forall in Fa, Fb.
    assert (x = y).
    { destruct (proj1 (Hab x) (or_introl eq_refl)) as [-> | Hx]; [reflexivity|].
      destruct (proj2 (Hab y) (or_introl eq_refl)) as [-> | Hy]; [reflexivity|].
      specialize (Fa y Hy). specialize (Fb x Hx). lia. }
    subst y. f_equal. apply IH; [exact Ha | exact Hb|]. intros z. split; intros Hz.
    + destruct (proj1 (Hab z) (or_intror Hz)) as [<- | Hz']; [|exact Hz'].
      specialize (Fa x Hz). lia.
    + destruct (proj2 (Hab z) (or_intror Hz)) as [<- | Hz']; [|exact Hz'].
      specialize (Fb x Hz). lia.
Qed.

Lemma combinations_lex (l : list nat) (r : nat) :
  StronglySorted lt l -> StronglySorted lex_lt (combinations l r).
Proof.
  revert r. induction l as [|x xs IH]; intros [|r] Hl; simpl;
    try (repeat constructor; fail).
  apply StronglySorted_inv in Hl as [Hxs Hx].
  apply StronglySorted_app.
  - specialize (IH r Hxs). induction IH as [|c cs HS IHc HF]; simpl; constructor; [exact IHc|].
    apply Forall_map. apply (Forall_impl _ (fun c' H => or_intror (conj eq_refl H)) HF).
  - apply IH, Hxs.
  - intros a b Ha Hb. apply in_map_iff in Ha as [a' [<- _]].
    apply in_combinations in Hb as [Hs Hlen].
    destruct b as [|y b]; [discriminate|].
    assert (Hy : In y xs) by (apply (subseq_incl _ _ Hs); left; reflexivity).
    rewrite Forall_forall in Hx. left. apply Hx, Hy.
Qed.

Lemma flat_map_combinations_sorted (l ks : list nat) :
  StronglySorted lt l -> StronglySorted lt ks ->
  StronglySorted size_lex_lt (flat_map (combinations l) ks).
Proof.
  intros Hl. induction 1 as [|k ks HS IH HF]; simpl; [constructor|].
  apply StronglySorted_app; [|exact IH|].
  - apply (StronglySorted_weaken lex_lt); [|apply combinations_lex, Hl].
    intros a b Ha Hb Hab. apply in_combinations in Ha as [_ Ha].
    apply in_combinations in Hb as [_ Hb]. right. split; [congruence | exact Hab].
  - intros a b Ha Hb. apply in_flat_map in Hb as [k' [Hk' Hb]].
    apply in_combinations in Ha as [_ Ha]. apply in_combinations in Hb as [_ Hb].
    unfold size_lex_lt. rewrite Ha, Hb. left. rewrite Forall_forall in HF. apply HF, Hk'.
Qed.

(** The tuples of [all_combs (seq 0 n)]: the non-empty strictly increasing
    index tuples below [n]. *)
Lemma in_all_combs_seq (n : nat) (c : list nat) :
  In c (all_combs (seq 0 n)) <->
  c <> [] /\ StronglySorted lt c /\ Forall (fun k => k < n) c.
Proof.
  unfold all_combs. rewrite in_flat_map, length_seq. split.
  - intros [k [Hk Hc]]. apply in_seq in Hk. apply in_combinations in Hc as [Hs Hlen].
    split; [intros ->; simpl in Hlen; lia|]. split.
    + apply (subseq_StronglySorted _ _ _ Hs), seq_StronglySorted.
    + apply Forall_forall. intros x Hx. apply (subseq_incl _ _ Hs), in_seq in Hx. lia.
  - intros [Hne [HS HF]].
    assert (Hs : subseq c (seq 0 n)).
    { apply sorted_subseq_seq; [exact HS|]. eapply Forall_impl; [|exact HF]. simpl; lia. }
    exists (length c). split.
    + apply in_seq. apply subseq_length in Hs. rewrite length_seq in Hs.
      destruct c; [contradiction | simpl in *; lia].
    + apply in_combinations. split; [exact Hs | reflexivity].
Qed.

Lemma all_combs_seq_NoDup (n : nat) : NoDup (all_combs (seq 0 n)).
Proof.
  unfold all_combs. apply flat_map_combinations_NoDup; apply seq_NoDup.
Qed.

Lemma all_combs_seq_sorted (n : nat) : StronglySorted size_lex_lt (all_combs (seq 0 n)).
Proof.
  unfold all_combs. apply flat_map_combinations_sorted; apply seq_StronglySorted.
Qed.

Lemma map_nth_seq_self {A : Type} (l : list A) (d : A) :
  map (fun i => nth i l d) (seq 0 (length l)) = l.
Proof.
  induction l as [|x l IH]; [reflexivity|].
  simpl. f_equal. rewrite <- seq_shift, map_map. exact IH.
Qed.

Lemma all_combs_map {A B : Type} (f : A -> B) (l : list A) :
  all_combs (map f l) = map (map f) (all_combs l).
Proof.
  unfold all_combs. rewrite length_map.
  induction (seq 1 (length l)) as [|k ks IH]; simpl; [reflexivity|].
  rewrite map_app, IH, combinations_map. reflexivity.
Qed.

Lemma binom_1 (n : nat) : binom n 1 = n.
Proof. induction n as [|n IH]; simpl; [reflexivity | rewrite IH; destruct n; simpl; lia]. Qed.

(** [binom n 2] is n(n-1)/2. *)
Lemma binom_2 (n : nat) : 2 * binom n 2 = n * (n - 1).
Proof.
  induction n as [|n IH]; [reflexivity|].
  cbn [binom]. rewrite binom_1. destruct n; simpl in *; nia.
Qed.

(** ** Lemmas on the [forward] loops *)

Lemma run_loop_filter (test : nat -> result bool) (call : nat -> result event)
  (ks : list nat) (f : nat -> bool) (g : nat -> event) :
  (forall k, In k ks -> test k = Ok (f k)) ->
  (forall k, In k ks -> f k = true -> call k = Ok (g k)) ->
  run_loop test call ks = (map g (filter f ks), None).
Proof.
  induction ks as [|k ks IH]; intros Ht Hc; simpl; [reflexivity|].
  rewrite (Ht k (or_introl eq_refl)).
  destruct (f k) eqn:Ef.
  - rewrite (Hc k (or_introl eq_refl) Ef), IH; [reflexivity | |];
      intros; [apply Ht | apply Hc]; auto using in_cons.
  - apply IH; intros; [apply Ht | apply Hc]; auto using in_cons.
Qed.

Lemma run_loop_no_exn (test : nat -> result bool) (call : nat -> result event)
  (ks : list nat) :
  (forall k, In k ks -> exists b, test k = Ok b) ->
  (forall k, In k ks -> exists ev, call k = Ok ev) ->
  snd (run_loop test call ks) = None.
Proof.
  induction ks as [|k ks IH]; intros Ht Hc; simpl; [reflexivity|].
  destruct (Ht k (or_introl eq_refl)) as [b ->].
  assert (IH' : snd (run_loop test call ks) = None)
    by (apply IH; intros; [apply Ht | apply Hc]; auto using in_cons).
  destruct b; [|exact IH'].
  destruct (Hc k (or_introl eq_refl)) as [ev ->].
  destruct (run_loop test call ks) as [evs e]. exact IH'.
Qed.

Lemma call_op_in_range (st : layer) (k : nat) (w : wires_arg) :
  k < length (ops_all st) -> call_op st k w = Ok (nth k (ops_all st) 0, w).
Proof. intros H. unfold call_op. rewrite (@nth_error_nth' _ (ops_all st) k 0 H). reflexivity. Qed.

Lemma filter_all_false {A : Type} (f : A -> bool) (l : list A) :
  (forall x, In x l -> f x = false) -> filter f l = [].
Proof.
  induction l as [|x l IH]; intros H; simpl; [reflexivity|].
  rewrite (H x (or_introl eq_refl)). apply IH. intros; apply H; right; assumption.
Qed.

Lemma filter_all_true {A : Type} (f : A -> bool) (l : list A) :
  (forall x, In x l -> f x = true) -> filter f l = l.
Proof.
  induction l as [|x l IH]; intros H; simpl; [reflexivity|].
  rewrite (H x (or_introl eq_refl)), IH; [reflexivity|]. intros; apply H; right; assumption.
Qed.

Lemma filter_seq_single (n w : nat) :
  w < n -> filter (fun k => Z.eqb (Z.of_nat k) (Z.of_nat w)) (seq 0 n) = [w].
Proof.
  intros Hw. replace n with (w + S (n - S w)) by lia.
  rewrite seq_app, filter_app. simpl seq. cbn [filter]. rewrite Z.eqb_refl.
  rewrite !filter_all_false; [reflexivity | |].
  - intros x Hx. apply in_seq in Hx. apply Z.eqb_neq. lia.
  - intros x Hx. apply in_seq in Hx. apply Z.eqb_neq. lia.
Qed.

Lemma map_seq_ops (n : nat) :
  map (fun k => (nth k (seq 0 n) 0, WInt k)) (seq 0 n) = map (fun k => (k, WInt k)) (seq 0 n).
Proof.
  apply map_ext_in. intros k Hk. apply in_seq in Hk. rewrite seq_nth by lia. reflexivity.
Qed.

Lemma existsb_PInt_false (k : Z) (zs : list Z) :
  Forall (fun z => z <> k) zs -> existsb (py_eqb (PInt k)) (map PInt zs) = false.
Proof.
  induction 1 as [|z zs Hz _ IH]; cbn [existsb map]; [reflexivity|].
  rewrite IH, orb_false_r. simpl. apply Z.eqb_neq. congruence.
Qed.

Lemma existsb_list_in_tuples (vs : list pyval) (c : list (list nat)) :
  existsb (py_eqb (PList vs)) (map py_of_subset c) = false.
Proof. induction c as [|t c IH]; simpl; [reflexivity | exact IH]. Qed.

(** The membership and comparison tests raise nothing but [TypeError]. *)
Lemma py_in_err (x c : pyval) (e : exn) : py_in x c = Err e -> e = TypeError.
Proof.
  unfold py_in. destruct c; try (destruct (py_hashable x)); intros H;
    (discriminate H || (injection H as <-; reflexivity)).
Qed.

Lemma py_lt_int_err (k : Z) (v : pyval) (e : exn) : py_lt_int k v = Err e -> e = TypeError.
Proof.
  unfold py_lt_int. destruct v; intros H; (discriminate H || (injection H as <-; reflexivity)).
Qed.

(** A loop whose calls all succeed ends normally or with an exception of
    its test. *)
Lemma run_loop_exn_TypeError (test : nat -> result bool) (call : nat -> result event)
  (ks : list nat) :
  (forall k e, In k ks -> test k = Err e -> e = TypeError) ->
  (forall k, In k ks -> exists ev, call k = Ok ev) ->
  snd (run_loop test call ks) = None \/ snd (run_loop test call ks) = Some TypeError.
Proof.
  induction ks as [|k ks IH]; intros Ht Hc; [left; reflexivity|].
  assert (IH' : snd (run_loop test call ks) = None \/
                snd (run_loop test call ks) = Some TypeError).
  { apply IH.
    - intros k' e Hk'. apply Ht. right. exact Hk'.
    - intros k' Hk'. apply Hc. right. exact Hk'. }
  cbn [run_loop]. destruct (test k) as [[|]|e] eqn:E.
  - destruct (Hc k (or_introl eq_refl)) as [ev ->].
    destruct (run_loop test call ks) as [evs o]. exact IH'.
  - exact IH'.
  - right. cbn [snd]. f_equal. apply (Ht k e (or_introl eq_refl) E).
Qed.

(** ** Claims on [forward] *)

(** C1 (code_bug).  [Super2QLayer.forward] tests membership of the Python
    lists [[k, (k+1) % n_wires]] and [[(k+1) % n_wires, k]]; a selector
    holding the pair as a tuple [(0, 1)], the form [arch_space] produces,
    never matches, so no gate is applied, while the same pair written as a
    list activates the gates for [k = 0] and [k = 1]. *)
Theorem Super2QLayer_forward_tuple_pair_not_applied :
  snd (forward (set_sample_arch (new_Super2QLayer 2 false) (py_of_pairs [[0; 1]])) 0)
  = ([], None) /\
  snd (forward (set_sample_arch (new_Super2QLayer 2 false)
                  (PTuple [PList [PInt 0; PInt 1]])) 0)
  = ([(0, WList [0; 1]); (1, WList [0; 1])], None).
Proof. split; reflexivity. Qed.

(** C2.  For every [Super2QLayer], every selector taken from its own
    [arch_space] (a tuple of 2-tuples) makes [forward] apply no gate and
    raise nothing: the list [[k, (k+1) % n_wires]] never equals a tuple. *)
Theorem Super2QLayer_arch_space_selectors_apply_nothing
  (st : layer) (Hk : kind st = Super2QLayer)
  (sels : list (list (list nat))) (Hs : arch_space_Super2QLayer st = Ok sels)
  (sel : list (list nat)) (Hsel : In sel sels) (dev : device) :
  snd (forward (set_sample_arch st (py_of_pairs sel)) dev) = ([], None).
Proof.
  unfold forward. cbn [kind set_sample_arch]. rewrite Hk.
  unfold forward_Super2QLayer. cbn [sample_arch n_wires set_sample_arch].
  rewrite (run_loop_filter _ _ _ (fun _ => false) (fun k => (k, WInt k))).
  - rewrite filter_all_false; reflexivity.
  - intros k _. unfold py_of_pairs, py_in, bind. rewrite !existsb_list_in_tuples. reflexivity.
  - discriminate.
Qed.

(** C9.  For a [Super1QSingleWireLayer] whose [ops_all] has one instance per
    wire and whose selector is a wire [w < n_wires], [forward] makes exactly
    one call: the instance [ops_all[w]] on wire [w]. *)
Theorem Super1QSingleWireLayer_forward_one_wire
  (st : layer) (w : nat)
  (Hops : length (ops_all st) = n_wires st) (Hw : w < n_wires st)
  (Hsel : sample_arch st = PInt (Z.of_nat w)) :
  exists g, nth_error (ops_all st) w = Some g /\
    forward_Super1QSingleWireLayer st = ([(g, WInt w)], None).
Proof.
  exists (nth w (ops_all st) 0). split; [apply nth_error_nth'; lia|].
  unfold forward_Super1QSingleWireLayer.
  rewrite (run_loop_filter _ _ _ (fun k => Z.eqb (Z.of_nat k) (Z.of_nat w))
             (fun k => (nth k (ops_all st) 0, WInt k))).
  - rewrite filter_seq_single by lia. reflexivity.
  - intros k _. rewrite Hsel. reflexivity.
  - intros k Hk _. apply in_seq in Hk. apply call_op_in_range. lia.
Qed.

(** C5 (amended).  A second call of [forward] on the layer left by a first
    one makes the same gate calls and raises the same exception, whatever
    the devices; the layer is left unchanged, except by
    [Super1QShareFrontLayer.forward], which stores the device in
    [self.q_device]. *)
Theorem forward_twice_same_calls (st : layer) (d1 d2 : device) :
  snd (forward (fst (forward st d1)) d2) = snd (forward st d1) /\
  fst (forward st d1) =
    match kind st with
    | Super1QShareFrontLayer => set_q_device st d1
    | _ => st
    end.
Proof.
  destruct st as [k n ops rev nf sa qd]. destruct k; split; reflexivity.
Qed.

(** C5: [Super1QShareFrontLayer.forward] changes the layer object. *)
Lemma share_front_forward_mutates_layer :
  fst (forward (new_Super1QShareFrontLayer 2 1) 7) <> new_Super1QShareFrontLayer 2 1.
Proof. cbv. discriminate. Qed.

(** C6: a [Super1QShareFrontLayer] threshold outside [arch_space] (5 for
    three wires) neither leaves the device untouched nor faults: every wire
    gets its gate. *)
Lemma share_front_threshold_above_space :
  ~ In 5%Z (arch_space_Super1QShareFrontLayer (new_Super1QShareFrontLayer 3 1)) /\
  snd (forward (set_sample_arch (new_Super1QShareFrontLayer 3 1) (PInt 5)) 0)
  = ([(0, WInt 0); (1, WInt 1); (2, WInt 2)], None).
Proof.
  split; [|reflexivity].
  intros H. simpl in H. intuition discriminate.
Qed.

(** C6 (amended).  No layer validates its selector or reports anything of
    its own, and [ops_all] is only indexed by the loop variable [k]:
    - with one instance per wire, [forward] never faults on indexing, for
      any selector: the only exception it can raise is the [TypeError] of
      Python's own [in] or [<] applied to the selector;
    - a [Super1QShareFrontLayer] threshold [>= n_wires] applies the gate at
      every wire;
    - a [Super1QAllButOneLayer] index outside [[0, n_wires)] applies the
      gate at every wire;
    - a [Super1QSingleWireLayer] index outside [[0, n_wires)] applies none;
    - a [Super1QLayer] tuple of indices all outside [[0, n_wires)] applies
      none. *)
Theorem forward_selector_outside_space :
  (forall (st : layer) (dev : device),
     length (ops_all st) = n_wires st ->
     snd (snd (forward st dev)) = None \/ snd (snd (forward st dev)) = Some TypeError) /\
  (forall (n : nat) (nf t : Z) (dev : device),
     (Z.of_nat n <= t)%Z ->
     snd (forward (set_sample_arch (new_Super1QShareFrontLayer n nf) (PInt t)) dev)
     = (map (fun k => (k, WInt k)) (seq 0 n), None)) /\
  (forall (n : nat) (w : Z) (dev : device),
     (w < 0 \/ Z.of_nat n <= w)%Z ->
     snd (forward (set_sample_arch (new_Super1QAllButOneLayer n) (PInt w)) dev)
     = (map (fun k => (k, WInt k)) (seq 0 n), None)) /\
  (forall (n : nat) (w : Z) (dev : device),
     (w < 0 \/ Z.of_nat n <= w)%Z ->
     snd (forward (set_sample_arch (new_Super1QSingleWireLayer n) (PInt w)) dev)
     = ([], None)) /\
  (forall (n : nat) (zs : list Z) (dev : device),
     Forall (fun z => z < 0 \/ Z.of_nat n <= z)%Z zs ->
     snd (forward (set_sample_arch (new_Super1QLayer n) (PTuple (map PInt zs))) dev)
     = ([], None)).
Proof.
  split; [|split; [|split; [|split]]].
  - intros [k n ops rev nf sa qd] dev Hops. simpl in Hops.
    destruct k;
      unfold forward, forward_Super1QLayer, forward_Super2QLayer,
        forward_Super1QShareFrontLayer, forward_Super1QSingleWireLayer,
        forward_Super1QAllButOneLayer;
      cbn [kind snd sample_arch n_wires set_q_device];
      apply run_loop_exn_TypeError;
      try (intros j Hj; apply in_seq in Hj; eexists; apply call_op_in_range; simpl; lia);
      intros j e _ He.
    + exact (py_in_err _ _ _ He).
    + destruct (py_in _ _) as [[|]|e'] eqn:E1; cbn [bind] in He.
      * discriminate He.
      * exact (py_in_err _ _ _ He).
      * injection He as <-. exact (py_in_err _ _ _ E1).
    + exact (py_lt_int_err _ _ _ He).
    + discriminate He.
    + discriminate He.
  - intros n nf t dev Ht. cbn [forward kind set_sample_arch new_Super1QShareFrontLayer new_layer snd].
    unfold forward_Super1QShareFrontLayer. cbn [n_wires set_q_device set_sample_arch].
    rewrite (run_loop_filter _ _ _ (fun _ => true) (fun k => (nth k (seq 0 n) 0, WInt k))).
    + rewrite filter_all_true by reflexivity. rewrite map_seq_ops. reflexivity.
    + intros k Hk. apply in_seq in Hk. cbn in Hk. simpl. f_equal. apply Z.ltb_lt. simpl in Hk. lia.
    + intros k Hk _. apply in_seq in Hk. cbn in Hk. apply call_op_in_range. simpl. rewrite length_seq. lia.
  - intros n w dev Hw. cbn [forward kind set_sample_arch new_Super1QAllButOneLayer new_layer].
    unfold forward_Super1QAllButOneLayer.
    rewrite (run_loop_filter _ _ _ (fun _ => true) (fun k => (nth k (seq 0 n) 0, WInt k))).
    + rewrite filter_all_true by reflexivity. rewrite map_seq_ops. reflexivity.
    + intros k Hk. apply in_seq in Hk. cbn in Hk. simpl. f_equal. apply negb_true_iff, Z.eqb_neq. lia.
    + intros k Hk _. apply in_seq in Hk. cbn in Hk. apply call_op_in_range. simpl. rewrite length_seq. lia.
  - intros n w dev Hw. cbn [forward kind set_sample_arch new_Super1QSingleWireLayer new_layer].
    unfold forward_Super1QSingleWireLayer.
    rewrite (run_loop_filter _ _ _ (fun _ => false) (fun k => (k, WInt k))).
    + rewrite filter_all_false; reflexivity.
    + intros k Hk. apply in_seq in Hk. cbn in Hk. simpl. f_equal. apply Z.eqb_neq. lia.
    + discriminate.
  - intros n zs dev Hzs. cbn [forward kind set_sample_arch new_Super1QLayer new_layer].
    unfold forward_Super1QLayer.
    rewrite (run_loop_filter _ _ _ (fun _ => false) (fun k => (k, WInt k))).
    + rewrite filter_all_false; reflexivity.
    + intros k Hk. apply in_seq in Hk. cbn in Hk. simpl sample_arch. unfold py_in, py_int.
      rewrite existsb_PInt_false; [reflexivity|].
      eapply Forall_impl; [|exact Hzs]. simpl. intros z Hz. lia.
    + discriminate.
Qed.

(** ** Claims on [get_combs] and [arch_space] *)

Lemma StronglySorted_map {A B : Type} (R : A -> A -> Prop) (R' : B -> B -> Prop)
  (f : A -> B) (l : list A) :
  (forall a b, R a b -> R' (f a) (f b)) -> StronglySorted R l -> StronglySorted R' (map f l).
Proof.
  intros Hf HS. induction HS as [|a l HS IH HF]; simpl; constructor; [exact IH|].
  apply Forall_map. eapply Forall_impl; [|exact HF]. intros b Hb. apply Hf, Hb.
Qed.

(** C3.  For [n_wires >= 1], [Super1QLayer.arch_space] has [2^n_wires - 1]
    selectors, pairwise distinct also as sets; each is a non-empty strictly
    increasing tuple of wires below [n_wires]; every such tuple occurs, so
    every size from 1 to [n_wires] is covered. *)
Theorem Super1QLayer_arch_space_nonempty_subsets (st : layer) (Hn : 1 <= n_wires st) :
  exists sels, arch_space_Super1QLayer st = Ok sels /\
    length sels = 2 ^ n_wires st - 1 /\
    NoDup sels /\
    (forall c, In c sels ->
       c <> [] /\ StronglySorted lt c /\ Forall (fun k => k < n_wires st) c) /\
    (forall c c', In c sels -> In c' sels -> (forall x, In x c <-> In x c') -> c = c') /\
    (forall c, c <> [] -> StronglySorted lt c -> Forall (fun k => k < n_wires st) c ->
       In c sels) /\
    (forall k, 1 <= k <= n_wires st -> exists c, In c sels /\ length c = k).
Proof.
  exists (all_combs (seq 0 (n_wires st))). split; [apply get_combs_None|].
  split; [rewrite all_combs_length, length_seq; reflexivity|].
  split; [apply all_combs_seq_NoDup|].
  split; [intros c Hc; apply in_all_combs_seq, Hc|].
  split.
  { intros c c' Hc Hc' Hx.
    apply in_all_combs_seq in Hc as (_ & Hc & _).
    apply in_all_combs_seq in Hc' as (_ & Hc' & _).
    apply StronglySorted_lt_ext; assumption. }
  split; [intros c H1 H2 H3; apply in_all_combs_seq; auto|].
  intros k Hk. exists (seq 0 k). split; [|apply length_seq].
  apply in_all_combs_seq. split; [destruct k; [lia | discriminate]|].
  split; [apply seq_StronglySorted|].
  apply Forall_forall. intros x Hx. apply in_seq in Hx. lia.
Qed.

(** C4.  [get_combs(l)] enumerates the tuples of positions of [l] and reads
    [l] at them; over the positions [0..n-1] it lists every non-empty
    strictly increasing tuple exactly once, shorter tuples first and
    lexicographically within one size; [get_combs([0,1,2])] is
    [[(0,),(1,),(2,),(0,1),(0,2),(1,2),(0,1,2)]]. *)
Theorem get_combs_None_enumeration :
  (forall (A : Type) (l : list A) (d : A),
     exists P, get_combs (seq 0 (length l)) SizesNone = Ok P /\
       get_combs l SizesNone = Ok (map (map (fun i => nth i l d)) P)) /\
  (forall (n : nat) (P : list (list nat)),
     get_combs (seq 0 n) SizesNone = Ok P ->
     NoDup P /\
     (forall c, In c P <-> c <> [] /\ StronglySorted lt c /\ Forall (fun k => k < n) c) /\
     StronglySorted size_lex_lt P) /\
  get_combs [0; 1; 2] SizesNone = Ok [[0]; [1]; [2]; [0; 1]; [0; 2]; [1; 2]; [0; 1; 2]].
Proof.
  split; [|split; [|reflexivity]].
  - intros A l d. exists (all_combs (seq 0 (length l))).
    split; [apply get_combs_None|]. rewrite get_combs_None, <- all_combs_map.
    rewrite map_nth_seq_self. reflexivity.
  - intros n P H. rewrite get_combs_None in H. injection H as <-.
    split; [apply all_combs_seq_NoDup|].
    split; [apply in_all_combs_seq | apply all_combs_seq_sorted].
Qed.

(** C7.  For [n_wires >= 2], [Super2QLayer.arch_space] has
    [2^C(n_wires, 2) - 1] selectors, and every pair [(i, j)] with
    [i < j < n_wires], adjacent or not, is a selector on its own. *)
Theorem Super2QLayer_arch_space_size (st : layer) (Hn : 2 <= n_wires st) :
  exists sels, arch_space_Super2QLayer st = Ok sels /\
    length sels = 2 ^ binom (n_wires st) 2 - 1 /\
    (forall i j, i < j < n_wires st -> In [[i; j]] sels).
Proof.
  exists (all_combs (combinations (seq 0 (n_wires st)) 2)). split; [apply get_combs_None|].
  split; [rewrite all_combs_length, combinations_length, length_seq; reflexivity|].
  intros i j Hij.
  assert (Hp : In [i; j] (combinations (seq 0 (n_wires st)) 2)).
  { apply in_combinations. split; [|reflexivity]. apply sorted_subseq_seq.
    - apply SSorted_cons; [apply SSorted_cons; [apply SSorted_nil | constructor]|].
      constructor; [lia | constructor].
    - constructor; [simpl; lia | constructor; [simpl; lia | constructor]]. }
  unfold all_combs. apply in_flat_map. exists 1. split.
  - apply in_seq. destruct (combinations (seq 0 (n_wires st)) 2); [contradiction | simpl; lia].
  - apply in_combinations. split; [apply subseq_singleton, Hp | reflexivity].
Qed.

(** C8 (amended).  [get_combs] returns [[]] for an empty input with
    [n = None]; an [int] size above the input length gives [[]]; the [int]
    size 0 gives [[()]], for every input; with any iterable of sizes, each
    size contributes in turn what it gives as an [int] size (the first
    size that raises ends the call with its exception); so with sizes each
    equal to 0 or above the input length, each 0 contributes one empty
    tuple and each larger size nothing. *)
Theorem get_combs_empty_and_size_zero :
  (forall A : Type, get_combs (@nil A) SizesNone = Ok []) /\
  (forall (A : Type) (l : list A) (r : Z),
     (Z.of_nat (length l) < r)%Z -> get_combs l (SizesInt r) = Ok []) /\
  (forall (A : Type) (l : list A), get_combs l (SizesInt 0) = Ok [[]]) /\
  (forall (A : Type) (l : list A) (ks : list Z),
     get_combs l (SizesIter ks) =
     fold_right (fun k r => let* p := get_combs l (SizesInt k) in
                            let* q := r in Ok (p ++ q)) (Ok []) ks) /\
  (forall (A : Type) (l : list A) (ks : list Z),
     Forall (fun k => k = 0 \/ Z.of_nat (length l) < k)%Z ks ->
     get_combs l (SizesIter ks) = Ok (repeat [] (count_occ Z.eq_dec ks 0%Z))).
Proof.
  split; [|split; [|split; [|split]]].
  - intros A. reflexivity.
  - intros A l r Hr. unfold get_combs. cbn [extend_combs]. unfold py_combinations.
    rewrite (proj2 (Z.ltb_ge r 0)) by lia. cbn [bind extend_combs].
    rewrite combinations_too_long by lia. reflexivity.
  - intros A l. unfold get_combs. cbn. rewrite combinations_0. reflexivity.
  - intros A l ks.
    set (F := fun ks => fold_right (fun k r => let* p := get_combs l (SizesInt k) in
                                               let* q := r in Ok (p ++ q)) (Ok []) ks).
    change (extend_combs l ks [] = F ks).
    enough (H : forall acc, extend_combs l ks acc = let* q := F ks in Ok (acc ++ q)).
    { rewrite H. destruct (F ks); reflexivity. }
    induction ks as [|k ks IH]; intros acc.
    + cbn. rewrite app_nil_r. reflexivity.
    + cbn [extend_combs]. change (F (k :: ks)) with
        (let* p := extend_combs l [k] [] in let* q := F ks in Ok (p ++ q)).
      cbn [extend_combs]. destruct (py_combinations l k) as [cs|e]; cbn [bind]; [|reflexivity].
      rewrite IH. destruct (F ks); cbn [bind app]; [rewrite app_assoc|]; reflexivity.
  - intros A l ks Hks. unfold get_combs.
    enough (H : forall acc, extend_combs l ks acc
                            = Ok (acc ++ repeat [] (count_occ Z.eq_dec ks 0%Z)))
      by apply H.
    induction Hks as [|k ks Hk _ IH]; intros acc; cbn [extend_combs count_occ].
    + rewrite app_nil_r. reflexivity.
    + unfold py_combinations. destruct Hk as [-> | Hk].
      * cbn [Z.ltb Z.compare bind Z.to_nat]. rewrite combinations_0, IH.
        destruct (Z.eq_dec 0 0) as [_ | Hne]; [|contradiction].
        rewrite <- app_assoc. reflexivity.
      * rewrite (proj2 (Z.ltb_ge k 0)) by lia. cbn [bind].
        rewrite combinations_too_long by lia. rewrite IH, app_nil_r.
        destruct (Z.eq_dec k 0); [lia | reflexivity].
Qed.

(** C8: the [int] size 0 does not give an empty result, also for an empty
    input. *)
Lemma get_combs_int_size_zero :
  get_combs (@nil nat) (SizesInt 0) = Ok [[]] /\ get_combs [1; 2] (SizesInt 0) = Ok [[]].
Proof. split; reflexivity. Qed.

(** C10.  [Super1QShareFrontLayer.arch_space] is the list of consecutive
    integers from [n_front_share_wires] to [n_wires] inclusive, increasing;
    for [n_wires = 5], [n_front_share_wires = 2] it is [[2, 3, 4, 5]]. *)
Theorem Super1QShareFrontLayer_arch_space_consecutive (st : layer) :
  (forall z, In z (arch_space_Super1QShareFrontLayer st) <->
             (n_front_share_wires st <= z <= Z.of_nat (n_wires st))%Z) /\
  (forall i, i < length (arch_space_Super1QShareFrontLayer st) ->
     nth i (arch_space_Super1QShareFrontLayer st) 0%Z = (n_front_share_wires st + Z.of_nat i)%Z) /\
  StronglySorted Z.lt (arch_space_Super1QShareFrontLayer st) /\
  arch_space_Super1QShareFrontLayer (new_Super1QShareFrontLayer 5 2) = [2; 3; 4; 5]%Z.
Proof.
  unfold arch_space_Super1QShareFrontLayer, py_range.
  set (nf := n_front_share_wires st). set (n := Z.of_nat (n_wires st)).
  split; [|split; [|split; [|reflexivity]]].
  - intros z. rewrite in_map_iff. split.
    + intros [i [<- Hi]]. apply in_seq in Hi. lia.
    + intros Hz. exists (Z.to_nat (z - nf)). split; [lia|]. apply in_seq. lia.
  - intros i Hi. rewrite length_map, length_seq in Hi.
    assert (E := map_nth (fun i => (nf + Z.of_nat i)%Z) (seq 0 (Z.to_nat (n + 1 - nf))) 0 i).
    cbv beta in E.
    rewrite (nth_indep _ _ (nf + Z.of_nat 0)%Z) by (rewrite length_map, length_seq; exact Hi).
    rewrite E, seq_nth by exact Hi. reflexivity.
  - apply (StronglySorted_map lt); [intros a b Hab; lia | apply seq_StronglySorted].
Qed.

(** ** Witnesses: the theorems at concrete layers *)

Lemma Super2QLayer_arch_space_selectors_apply_nothing_witness :
  snd (forward (set_sample_arch (new_Super2QLayer 3 false) (py_of_pairs [[0; 1]; [1; 2]])) 0)
  = ([], None).
Proof.
  apply (Super2QLayer_arch_space_selectors_apply_nothing (new_Super2QLayer 3 false) eq_refl
           [[[0; 1]]; [[0; 2]]; [[1; 2]]; [[0; 1]; [0; 2]]; [[0; 1]; [1; 2]];
            [[0; 2]; [1; 2]]; [[0; 1]; [0; 2]; [1; 2]]] eq_refl).
  simpl. repeat (first [left; reflexivity | right]).
Defined.

Lemma Super1QSingleWireLayer_forward_one_wire_witness :
  forward_Super1QSingleWireLayer (set_sample_arch (new_Super1QSingleWireLayer 3) (PInt 1))
  = ([(1, WInt 1)], None).
Proof.
  destruct (Super1QSingleWireLayer_forward_one_wire
              (set_sample_arch (new_Super1QSingleWireLayer 3) (PInt 1)) 1
              eq_refl ltac:(simpl; lia) eq_refl) as [g [Hg Hf]].
  simpl in Hg. injection Hg as <-. exact Hf.
Defined.

Lemma forward_selector_outside_space_witness :
  snd (snd (forward (set_sample_arch (new_Super2QLayer 2 false)
                      (PSet [PTuple [PInt 0; PInt 1]])) 0)) = Some TypeError /\
  snd (forward (set_sample_arch (new_Super1QShareFrontLayer 3 1) (PInt 5)) 0)
  = (map (fun k => (k, WInt k)) (seq 0 3), None) /\
  snd (forward (set_sample_arch (new_Super1QAllButOneLayer 3) (PInt 7)) 0)
  = (map (fun k => (k, WInt k)) (seq 0 3), None) /\
  snd (forward (set_sample_arch (new_Super1QSingleWireLayer 3) (PInt (-1))) 0) = ([], None) /\
  snd (forward (set_sample_arch (new_Super1QLayer 3) (PTuple (map PInt [3; -2]%Z))) 0)
  = ([], None).
Proof.
  destruct forward_selector_outside_space as (H1 & H2 & H3 & H4 & H5).
  split.
  { destruct (H1 (set_sample_arch (new_Super2QLayer 2 false) (PSet [PTuple [PInt 0; PInt 1]])) 0
                 eq_refl) as [H | H]; [discriminate H | exact H]. }
  split; [apply (H2 3 1%Z 5%Z 0); lia|].
  split; [apply (H3 3 7%Z 0); lia|].
  split; [apply (H4 3 (-1)%Z 0); lia|].
  apply (H5 3 [3; -2]%Z 0). repeat constructor; lia.
Defined.

Lemma Super1QLayer_arch_space_nonempty_subsets_witness :
  exists sels, arch_space_Super1QLayer (new_Super1QLayer 3) = Ok sels /\ length sels = 7.
Proof.
  destruct (Super1QLayer_arch_space_nonempty_subsets (new_Super1QLayer 3) ltac:(simpl; lia))
    as [sels [H1 [H2 _]]].
  exists sels. split; [exact H1 | rewrite H2; reflexivity].
Defined.

Lemma get_combs_None_enumeration_witness :
  NoDup [[0]; [1]; [2]; [0; 1]; [0; 2]; [1; 2]; [0; 1; 2]] /\
  get_combs [10; 20; 30] SizesNone
  = Ok [[10]; [20]; [30]; [10; 20]; [10; 30]; [20; 30]; [10; 20; 30]].
Proof.
  destruct get_combs_None_enumeration as [Hmap [Hpos _]].
  split.
  - apply (proj1 (Hpos 3 _ eq_refl)).
  - destruct (Hmap nat [10; 20; 30] 0) as [P [HP Hl]].
    vm_compute in HP. injection HP as HP. subst P. exact Hl.
Defined.

Lemma Super2QLayer_arch_space_size_witness :
  exists sels, arch_space_Super2QLayer (new_Super2QLayer 4 false) = Ok sels /\
    length sels = 63 /\ In [[0; 2]] sels.
Proof.
  destruct (Super2QLayer_arch_space_size (new_Super2QLayer 4 false) ltac:(simpl; lia))
    as [sels [H1 [H2 H3]]].
  exists sels. split; [exact H1|]. split; [rewrite H2; reflexivity|]. apply H3. simpl. lia.
Defined.

Lemma get_combs_empty_and_size_zero_witness :
  get_combs [1; 2] (SizesInt 3) = Ok [] /\
  get_combs [1; 2] (SizesIter [0; 1]%Z) = Ok [[]; [1]; [2]] /\
  get_combs [1; 2] (SizesIter [0; 5; 0]%Z) = Ok [[]; []].
Proof.
  destruct get_combs_empty_and_size_zero as (_ & H2 & _ & H3 & H4).
  split; [apply H2; simpl; lia|].
  split; [rewrite H3; reflexivity|].
  apply (H4 nat [1; 2] [0; 5; 0]%Z). repeat constructor; simpl; lia.
Defined.

Lemma Super1QShareFrontLayer_arch_space_consecutive_witness :
  nth 2 (arch_space_Super1QShareFrontLayer (new_Super1QShareFrontLayer 5 2)) 0%Z = 4%Z.
Proof.
  destruct (Super1QShareFrontLayer_arch_space_consecutive (new_Super1QShareFrontLayer 5 2))
    as [_ [H _]].
  apply H. simpl. lia.
Defined.

(** ** Further properties of [get_combs] *)

Lemma extend_combs_acc {A : Type} (l : list A) (ks : list Z) (acc : list (list A)) :
  extend_combs l ks acc = let* r := extend_combs l ks [] in Ok (acc ++ r).
Proof.
  revert acc. induction ks as [|k ks IH]; intros acc; simpl.
  - rewrite app_nil_r. reflexivity.
  - destruct (py_combinations l k) as [cs|e]; simpl; [|reflexivity].
    rewrite (IH (acc ++ cs)), (IH cs).
    destruct (extend_combs l ks []); simpl; [rewrite app_assoc|]; reflexivity.
Qed.

Lemma extend_combs_app {A : Type} (l : list A) (ks1 ks2 : list Z) (acc : list (list A)) :
  extend_combs l (ks1 ++ ks2) acc = let* a := extend_combs l ks1 acc in extend_combs l ks2 a.
Proof.
  revert acc. induction ks1 as [|k ks1 IH]; intros acc; simpl; [reflexivity|].
  destruct (py_combinations l k); simpl; [apply IH | reflexivity].
Qed.

(** [get_combs(l, r)] for an [int] [r >= 0]: [C(len(l), r)] tuples, which
    are exactly the subsequences of [l] of length [r], without repetition
    when [l] has none. *)
Theorem get_combs_int_size {A : Type} (l : list A) (r : Z) (Hr : (0 <= r)%Z) :
  exists cs, get_combs l (SizesInt r) = Ok cs /\
    length cs = binom (length l) (Z.to_nat r) /\
    (forall c, In c cs <-> subseq c l /\ length c = Z.to_nat r) /\
    (NoDup l -> NoDup cs).
Proof.
  exists (combinations l (Z.to_nat r)). split.
  - unfold get_combs. cbn [extend_combs]. unfold py_combinations.
    rewrite (proj2 (Z.ltb_ge r 0)) by lia. reflexivity.
  - split; [apply combinations_length|].
    split; [intros c; apply in_combinations | apply combinations_NoDup].
Qed.

(** A negative size raises [ValueError]: as an [int], or anywhere in an
    iterable of sizes, whatever the sizes before it. *)
Theorem get_combs_negative_size :
  (forall (A : Type) (l : list A) (r : Z),
     (r < 0)%Z -> get_combs l (SizesInt r) = Err ValueError) /\
  (forall (A : Type) (l : list A) (ks : list Z),
     (exists k, In k ks /\ (k < 0)%Z) -> get_combs l (SizesIter ks) = Err ValueError).
Proof.
  split.
  - intros A l r Hr. unfold get_combs. cbn [extend_combs]. unfold py_combinations.
    rewrite (proj2 (Z.ltb_lt r 0)) by exact Hr. reflexivity.
  - intros A l ks [k0 [Hin Hk0]]. unfold get_combs. generalize (@nil (list A)) as acc.
    induction ks as [|k ks IH]; intros acc; [contradiction|].
    cbn [extend_combs]. unfold py_combinations.
    destruct (Z.ltb k 0) eqn:Ek; [reflexivity|].
    destruct Hin as [-> | Hin].
    + apply Z.ltb_ge in Ek. lia.
    + apply IH, Hin.
Qed.

(** With an iterable of sizes, the result for [ks1 + ks2] is the result for
    [ks1] followed by the result for [ks2] (sizes are not deduplicated), and
    an error in either part is the error of the whole. *)
Theorem get_combs_iter_app {A : Type} (l : list A) (ks1 ks2 : list Z) :
  get_combs l (SizesIter (ks1 ++ ks2)) =
    let* a := get_combs l (SizesIter ks1) in
    let* b := get_combs l (SizesIter ks2) in
    Ok (a ++ b).
Proof.
  unfold get_combs. rewrite extend_combs_app.
  destruct (extend_combs l ks1 []) as [a|e]; simpl; [|reflexivity].
  apply extend_combs_acc.
Qed.

(** [get_combs(l)] for any input list: [2^len(l) - 1] tuples, which are
    exactly the non-empty subsequences of [l], without repetition when [l]
    has none. *)
Theorem get_combs_None_subsequences {A : Type} (l : list A) :
  exists cs, get_combs l SizesNone = Ok cs /\
    length cs = 2 ^ length l - 1 /\
    (forall c, In c cs <-> subseq c l /\ c <> []) /\
    (NoDup l -> NoDup cs).
Proof.
  exists (all_combs l). split; [apply get_combs_None|].
  split; [apply all_combs_length|]. split.
  - intros c. unfold all_combs. rewrite in_flat_map. split.
    + intros [k [Hk Hc]]. apply in_seq in Hk. apply in_combinations in Hc as [Hs Hl].
      split; [exact Hs | intros ->; simpl in Hl; lia].
    + intros [Hs Hne]. exists (length c). split.
      * apply in_seq. apply subseq_length in Hs. destruct c; [contradiction | simpl in *; lia].
      * apply in_combinations. split; [exact Hs | reflexivity].
  - intros Hl. unfold all_combs. apply flat_map_combinations_NoDup; [exact Hl | apply seq_NoDup].
Qed.

(** ** Further properties of [forward] *)

Lemma run_loop_subseq (test : nat -> result bool) (call : nat -> result event)
  (ks : list nat) (g : nat -> event) :
  (forall k, In k ks -> call k = Ok (g k)) ->
  exists ks', subseq ks' ks /\ fst (run_loop test call ks) = map g ks'.
Proof.
  induction ks as [|k ks IH]; intros Hc; simpl.
  - exists []. split; [constructor | reflexivity].
  - destruct IH as [ks' [Hs He]]; [intros; apply Hc; right; assumption|].
    destruct (test k) as [[|]|e].
    + rewrite (Hc k (or_introl eq_refl)).
      destruct (run_loop test call ks) as [evs e] eqn:E. simpl in He.
      exists (k :: ks'). split; [apply subseq_take, Hs | simpl; rewrite He; reflexivity].
    + exists ks'. split; [apply subseq_skip, Hs | exact He].
    + exists []. split; [apply subseq_nil_l | reflexivity].
Qed.

Lemma run_loop_map_calls (test : nat -> result bool) (call1 call2 : nat -> result event)
  (f : event -> event) (ks : list nat) :
  (forall k, call2 k = match call1 k with Ok ev => Ok (f ev) | Err e => Err e end) ->
  run_loop test call2 ks =
    (map f (fst (run_loop test call1 ks)), snd (run_loop test call1 ks)).
Proof.
  intros Hc. induction ks as [|k ks IH]; simpl; [reflexivity|].
  destruct (test k) as [[|]|e]; [|exact IH|reflexivity].
  rewrite Hc. destruct (call1 k) as [ev|e]; [|reflexivity].
  rewrite IH. destruct (run_loop test call1 ks). reflexivity.
Qed.

Lemma existsb_py_int (k : nat) (c : list nat) :
  existsb (py_eqb (py_int k)) (map py_int c) = existsb (Nat.eqb k) c.
Proof.
  induction c as [|x c IH]; cbn [existsb map]; [reflexivity|].
  rewrite IH. f_equal. simpl. destruct (Nat.eqb_spec k x), (Z.eqb_spec (Z.of_nat k) (Z.of_nat x));
    reflexivity || lia.
Qed.

Lemma filter_mem_subseq (c l : list nat) :
  subseq c l -> NoDup l -> filter (fun k => existsb (Nat.eqb k) c) l = c.
Proof.
  induction 1 as [| x t l Hs IH | x t l Hs IH]; intros Hl; [reflexivity| |].
  - apply NoDup_cons_iff in Hl as [Hx Hl]. simpl.
    replace (existsb (Nat.eqb x) t) with false.
    + apply IH, Hl.
    + symmetry. apply not_true_iff_false. intros H. apply existsb_exists in H as [y [Hy Hxy]].
      apply Nat.eqb_eq in Hxy. subst y. apply Hx, (subseq_incl _ _ Hs), Hy.
  - apply NoDup_cons_iff in Hl as [Hx Hl]. simpl. rewrite Nat.eqb_refl. simpl. f_equal.
    transitivity (filter (fun k => existsb (Nat.eqb k) t) l); [|apply IH, Hl].
    apply filter_ext_in. intros y Hy. simpl.
    destruct (Nat.eqb_spec y x); [subst; contradiction | reflexivity].
Qed.

Lemma map_ops_seq (n : nat) (ks : list nat) :
  Forall (fun k => k < n) ks ->
  map (fun k => (nth k (seq 0 n) 0, WInt k)) ks = map (fun k => (k, WInt k)) ks.
Proof.
  intros H. apply map_ext_in. intros k Hk. rewrite Forall_forall in H.
  rewrite seq_nth by (apply H, Hk). reflexivity.
Qed.

(** On a freshly constructed layer ([sample_arch = None]) with at least one
    wire, [forward] raises [TypeError] before any call for [Super1QLayer],
    [Super2QLayer] and [Super1QShareFrontLayer], applies no gate for
    [Super1QSingleWireLayer], and applies the gate at every wire for
    [Super1QAllButOneLayer] ([k != None] holds). *)
Theorem forward_unset_selector (n : nat) (Hn : 1 <= n) (rev : bool) (nf : Z) (dev : device) :
  snd (forward (new_Super1QLayer n) dev) = ([], Some TypeError) /\
  snd (forward (new_Super2QLayer n rev) dev) = ([], Some TypeError) /\
  snd (forward (new_Super1QShareFrontLayer n nf) dev) = ([], Some TypeError) /\
  snd (forward (new_Super1QSingleWireLayer n) dev) = ([], None) /\
  snd (forward (new_Super1QAllButOneLayer n) dev) = (map (fun k => (k, WInt k)) (seq 0 n), None).
Proof.
  destruct n as [|m]; [lia|].
  split; [reflexivity|]. split; [reflexivity|]. split; [reflexivity|]. split.
  - cbn [forward kind new_Super1QSingleWireLayer new_layer snd].
    unfold forward_Super1QSingleWireLayer.
    rewrite (run_loop_filter _ _ _ (fun _ => false) (fun k => (k, WInt k))).
    + rewrite filter_all_false; reflexivity.
    + reflexivity.
    + discriminate.
  - cbn [forward kind new_Super1QAllButOneLayer new_layer snd].
    unfold forward_Super1QAllButOneLayer.
    rewrite (run_loop_filter _ _ _ (fun _ => true) (fun k => (nth k (seq 0 (S m)) 0, WInt k))).
    + rewrite filter_all_true by reflexivity. rewrite map_seq_ops. reflexivity.
    + reflexivity.
    + intros k Hk _. apply in_seq in Hk. cbn in Hk. apply call_op_in_range. simpl. rewrite length_seq. lia.
Qed.

(** A selector of [Super1QLayer.arch_space] makes [forward] apply
    [ops_all[k]] at wire [k] for exactly the wires [k] of the selector, in
    increasing order. *)
Theorem Super1QLayer_forward_arch_space_selector (n : nat) (sels : list (list nat))
  (Hs : arch_space_Super1QLayer (new_Super1QLayer n) = Ok sels)
  (c : list nat) (Hc : In c sels) :
  forward_Super1QLayer (set_sample_arch (new_Super1QLayer n) (py_of_subset c))
  = (map (fun k => (k, WInt k)) c, None).
Proof.
  unfold arch_space_Super1QLayer in Hs. rewrite get_combs_None in Hs.
  injection Hs as <-. cbn [n_wires new_Super1QLayer new_layer] in Hc.
  assert (Hsub : subseq c (seq 0 n)).
  { unfold all_combs in Hc. apply in_flat_map in Hc as [k [_ Hk]].
    apply in_combinations in Hk as [Hsub _]. exact Hsub. }
  assert (Hlt : Forall (fun k => k < n) c).
  { apply Forall_forall. intros k Hk. apply (subseq_incl _ _ Hsub), in_seq in Hk. lia. }
  unfold forward_Super1QLayer.
  rewrite (run_loop_filter _ _ _ (fun k => existsb (Nat.eqb k) c)
             (fun k => (nth k (seq 0 n) 0, WInt k))).
  - rewrite filter_mem_subseq by (exact Hsub || apply seq_NoDup).
    rewrite map_ops_seq by exact Hlt. reflexivity.
  - intros k _. cbn [sample_arch set_sample_arch]. unfold py_of_subset, py_in.
    rewrite existsb_py_int. reflexivity.
  - intros k Hk _. apply in_seq in Hk. cbn in Hk. apply call_op_in_range. simpl. rewrite length_seq. lia.
Qed.

(** With an index [w < n_wires], [Super1QAllButOneLayer.forward] applies
    [ops_all[k]] at every wire [k] except [w], in increasing order. *)
Theorem Super1QAllButOneLayer_forward_in_range (n w : nat) (Hw : w < n) (dev : device) :
  snd (forward (set_sample_arch (new_Super1QAllButOneLayer n) (PInt (Z.of_nat w))) dev)
  = (map (fun k => (k, WInt k)) (seq 0 w ++ seq (S w) (n - S w)), None).
Proof.
  cbn [forward kind set_sample_arch new_Super1QAllButOneLayer new_layer snd].
  unfold forward_Super1QAllButOneLayer.
  cbn [n_wires set_sample_arch new_Super1QAllButOneLayer new_layer].
  rewrite (run_loop_filter _ _ _ (fun k => negb (Z.eqb (Z.of_nat k) (Z.of_nat w)))
             (fun k => (nth k (seq 0 n) 0, WInt k))).
  - assert (E : filter (fun k => negb (Z.eqb (Z.of_nat k) (Z.of_nat w))) (seq 0 n)
                = seq 0 w ++ seq (S w) (n - S w)).
    { replace n with (w + S (n - S w)) at 1 by lia.
      rewrite seq_app, filter_app. simpl seq. cbn [filter]. rewrite Z.eqb_refl. simpl negb.
      rewrite !filter_all_true; [reflexivity | |].
      - intros x Hx. apply in_seq in Hx. apply negb_true_iff, Z.eqb_neq. lia.
      - intros x Hx. apply in_seq in Hx. apply negb_true_iff, Z.eqb_neq. lia. }
    rewrite E, map_ops_seq; [reflexivity|].
    apply Forall_forall. intros k Hk. apply in_app_iff in Hk as [Hk | Hk]; apply in_seq in Hk; lia.
  - reflexivity.
  - intros k Hk _. apply in_seq in Hk. cbn in Hk. apply call_op_in_range. simpl.
    rewrite length_seq. lia.
Qed.

(** With a threshold [t <= n_wires], [Super1QShareFrontLayer.forward]
    applies [ops_all[k]] at the first [t] wires [0 .. t-1], in order. *)
Theorem Super1QShareFrontLayer_forward_front (n t : nat) (Ht : t <= n) (nf : Z) (dev : device) :
  snd (forward (set_sample_arch (new_Super1QShareFrontLayer n nf) (PInt (Z.of_nat t))) dev)
  = (map (fun k => (k, WInt k)) (seq 0 t), None).
Proof.
  cbn [forward kind set_sample_arch new_Super1QShareFrontLayer new_layer snd].
  unfold forward_Super1QShareFrontLayer.
  cbn [n_wires set_q_device set_sample_arch new_Super1QShareFrontLayer new_layer].
  rewrite (run_loop_filter _ _ _ (fun k => Z.ltb (Z.of_nat k) (Z.of_nat t))
             (fun k => (nth k (seq 0 n) 0, WInt k))).
  - assert (E : filter (fun k => Z.ltb (Z.of_nat k) (Z.of_nat t)) (seq 0 n) = seq 0 t).
    { replace n with (t + (n - t)) at 1 by lia.
      rewrite seq_app, filter_app, filter_all_true, filter_all_false, app_nil_r; [reflexivity| |].
      - intros x Hx. apply in_seq in Hx. apply Z.ltb_ge. lia.
      - intros x Hx. apply in_seq in Hx. apply Z.ltb_lt. lia. }
    rewrite E, map_ops_seq; [reflexivity|].
    apply Forall_forall. intros k Hk. apply in_seq in Hk. lia.
  - reflexivity.
  - intros k Hk _. apply in_seq in Hk. apply call_op_in_range. simpl. rewrite length_seq. lia.
Qed.

(** Loops whose tests and calls agree on every index make the same calls
    and raise the same exception. *)
Lemma run_loop_ext (test1 test2 : nat -> result bool) (call1 call2 : nat -> result event)
  (ks : list nat) :
  (forall k, In k ks -> test1 k = test2 k /\ call1 k = call2 k) ->
  run_loop test1 call1 ks = run_loop test2 call2 ks.
Proof.
  induction ks as [|k ks IH]; intros H; [reflexivity|].
  cbn [run_loop]. destruct (H k (or_introl eq_refl)) as [-> ->].
  rewrite IH; [reflexivity|]. intros k' Hk'. apply H. right. exact Hk'.
Qed.

Lemma py_eqb_pair (x y a b : nat) :
  py_eqb (PList [py_int x; py_int y]) (PList [py_int a; py_int b]) = (Nat.eqb x a && Nat.eqb y b).
Proof.
  cbn [py_eqb py_int].
  destruct (Z.eqb_spec (Z.of_nat x) (Z.of_nat a)), (Nat.eqb_spec x a),
    (Z.eqb_spec (Z.of_nat y) (Z.of_nat b)), (Nat.eqb_spec y b); simpl; try reflexivity; lia.
Qed.

(** Removing an element that [x] is not [==] to from a tuple or list does
    not change [x in c]. *)
Lemma py_in_remove (mk : list pyval -> pyval) (Hmk : mk = PTuple \/ mk = PList)
  (x v : pyval) (pre post : list pyval) :
  py_eqb x v = false -> py_in x (mk (pre ++ v :: post)) = py_in x (mk (pre ++ post)).
Proof.
  intros Hv. destruct Hmk as [-> | ->]; unfold py_in; rewrite !existsb_app;
    cbn [existsb]; rewrite Hv; reflexivity.
Qed.

(** [Super2QLayer.forward] ignores a pair [[a, b]] (given as a list) whose
    wires are not cyclically adjacent, wherever it stands in a tuple or list
    selector: the layer behaves as if the pair were not there, whatever the
    other members of the selector. *)
Theorem Super2QLayer_forward_non_adjacent_pairs (st : layer)
  (mk : list pyval -> pyval) (Hmk : mk = PTuple \/ mk = PList)
  (pre post : list pyval) (a b : nat)
  (Hab : b <> Nat.modulo (a + 1) (n_wires st) /\ a <> Nat.modulo (b + 1) (n_wires st)) :
  forward_Super2QLayer (set_sample_arch st (mk (pre ++ PList [py_int a; py_int b] :: post)))
  = forward_Super2QLayer (set_sample_arch st (mk (pre ++ post))).
Proof.
  destruct Hab as [H1 H2]. unfold forward_Super2QLayer.
  cbn [n_wires sample_arch set_sample_arch].
  apply run_loop_ext. intros k _. split; [|reflexivity].
  rewrite !(py_in_remove mk Hmk); [reflexivity | |]; rewrite py_eqb_pair; apply andb_false_iff.
  - destruct (Nat.eqb_spec k b) as [<- | Hkb]; [left | right; reflexivity].
    apply Nat.eqb_neq. intros E. apply H2. symmetry. exact E.
  - destruct (Nat.eqb_spec k a) as [<- | Hka]; [right | left; reflexivity].
    apply Nat.eqb_neq. intros E. apply H1. symmetry. exact E.
Qed.

Lemma sorted_pair_rev (a b : nat) : sorted_pair true a b = rev (sorted_pair false a b).
Proof.
  unfold sorted_pair. destruct (Nat.ltb_spec a b), (Nat.ltb_spec b a); simpl; try reflexivity.
  - lia.
  - assert (a = b) by lia. subst. reflexivity.
Qed.

(** [wire_reverse=True] makes [Super2QLayer.forward] call the same gate
    instances as [wire_reverse=False], in the same order, each on the
    reversed list of wires, and raise the same exception. *)
Theorem Super2QLayer_forward_wire_reverse (n : nat) (sel : pyval) :
  forward_Super2QLayer (set_sample_arch (new_Super2QLayer n true) sel) =
    (map reverse_wires (fst (forward_Super2QLayer (set_sample_arch (new_Super2QLayer n false) sel))),
     snd (forward_Super2QLayer (set_sample_arch (new_Super2QLayer n false) sel))).
Proof.
  unfold forward_Super2QLayer.
  cbn [n_wires sample_arch wire_reverse set_sample_arch new_Super2QLayer new_layer].
  apply run_loop_map_calls. intros k. unfold call_op.
  cbn [ops_all set_sample_arch new_Super2QLayer new_layer].
  destruct (nth_error _ k); [|reflexivity].
  cbn [reverse_wires]. rewrite sorted_pair_rev. reflexivity.
Qed.

(** Whatever the selector, [forward] on a constructed layer calls
    [ops_all[k]] only for wires [k < n_wires], each at most once, in
    increasing order of [k]; a 1-qubit layer on wire [k], [Super2QLayer] on
    [sorted([k, (k+1) % n_wires], reverse=wire_reverse)]. *)
Theorem forward_calls_increasing_wires (kd : layer_kind) (n : nat) (rev : bool) (nf : Z)
  (sel : pyval) (dev : device) :
  exists ks, StronglySorted lt ks /\ Forall (fun k => k < n) ks /\
    fst (snd (forward (set_sample_arch (new_layer kd n rev nf) sel) dev))
    = map (fun k => (k, wires_of kd rev n k)) ks.
Proof.
  assert (Hcall : forall (w : nat -> wires_arg) k, In k (seq 0 n) ->
            call_op (set_sample_arch (new_layer kd n rev nf) sel) k (w k) = Ok (k, w k)).
  { intros w k Hk. apply in_seq in Hk. rewrite call_op_in_range.
    - cbn [ops_all set_sample_arch new_layer]. rewrite seq_nth by lia. reflexivity.
    - cbn [ops_all set_sample_arch new_layer]. rewrite length_seq. lia. }
  assert (Hfin : forall ks, subseq ks (seq 0 n) ->
            StronglySorted lt ks /\ Forall (fun k => k < n) ks).
  { intros ks Hs. split; [apply (subseq_StronglySorted _ _ _ Hs), seq_StronglySorted|].
    apply Forall_forall. intros k Hk. apply (subseq_incl _ _ Hs), in_seq in Hk. lia. }
  destruct kd; unfold forward, forward_Super1QLayer, forward_Super2QLayer,
    forward_Super1QShareFrontLayer, forward_Super1QSingleWireLayer,
    forward_Super1QAllButOneLayer; cbn [kind n_wires set_sample_arch set_q_device new_layer snd];
  match goal with
  | |- context [run_loop ?t (fun k => call_op ?st k (@?w k)) (seq 0 n)] =>
      destruct (run_loop_subseq t (fun k => call_op st k (w k)) (seq 0 n)
                  (fun k => (k, w k))) as [ks [Hs He]];
      [intros k Hk; apply (Hcall w k Hk)|]
  end;
  (exists ks; split; [apply Hfin, Hs | split; [apply Hfin, Hs | exact He]]).
Qed.

(** ** Witnesses of the further properties *)

Lemma get_combs_int_size_witness :
  exists cs, get_combs [10; 20; 30] (SizesInt 2) = Ok cs /\ length cs = 3 /\ NoDup cs.
Proof.
  destruct (get_combs_int_size [10; 20; 30] 2 ltac:(lia)) as [cs [H1 [H2 [_ H4]]]].
  exists cs. split; [exact H1|]. split; [rewrite H2; reflexivity|].
  apply H4. repeat constructor; simpl; intuition discriminate.
Defined.

Lemma get_combs_negative_size_witness :
  get_combs [1; 2] (SizesInt (-1)) = Err ValueError /\
  get_combs [1; 2] (SizesIter [1; -3; 2]%Z) = Err ValueError.
Proof.
  destruct get_combs_negative_size as [H1 H2]. split.
  - apply H1. lia.
  - apply H2. exists (-3)%Z. split; [simpl; tauto | lia].
Defined.

Lemma get_combs_None_subsequences_witness :
  exists cs, get_combs [10; 20; 30] SizesNone = Ok cs /\ length cs = 7 /\ NoDup cs.
Proof.
  destruct (get_combs_None_subsequences [10; 20; 30]) as [cs [H1 [H2 [_ H4]]]].
  exists cs. split; [exact H1|]. split; [rewrite H2; reflexivity|].
  apply H4. repeat constructor; simpl; intuition discriminate.
Defined.

Lemma forward_unset_selector_witness :
  snd (forward (new_Super1QAllButOneLayer 2) 0) = ([(0, WInt 0); (1, WInt 1)], None).
Proof.
  apply (forward_unset_selector 2 ltac:(lia) false 0%Z 0).
Defined.

Lemma Super1QLayer_forward_arch_space_selector_witness :
  forward_Super1QLayer (set_sample_arch (new_Super1QLayer 3) (py_of_subset [0; 2]))
  = ([(0, WInt 0); (2, WInt 2)], None).
Proof.
  apply (Super1QLayer_forward_arch_space_selector 3
           [[0]; [1]; [2]; [0; 1]; [0; 2]; [1; 2]; [0; 1; 2]] eq_refl).
  simpl. repeat (first [left; reflexivity | right]).
Defined.

Lemma Super1QAllButOneLayer_forward_in_range_witness :
  snd (forward (set_sample_arch (new_Super1QAllButOneLayer 4) (PInt 2)) 0)
  = ([(0, WInt 0); (1, WInt 1); (3, WInt 3)], None).
Proof.
  apply (Super1QAllButOneLayer_forward_in_range 4 2 ltac:(lia) 0).
Defined.

Lemma Super1QShareFrontLayer_forward_front_witness :
  snd (forward (set_sample_arch (new_Super1QShareFrontLayer 4 2) (PInt 3)) 0)
  = ([(0, WInt 0); (1, WInt 1); (2, WInt 2)], None).
Proof.
  apply (Super1QShareFrontLayer_forward_front 4 3 ltac:(lia) 2%Z 0).
Defined.

Lemma Super2QLayer_forward_non_adjacent_pairs_witness :
  forward_Super2QLayer (set_sample_arch (new_Super2QLayer 4 false)
    (PList [PList [py_int 0; py_int 1]; PList [py_int 0; py_int 2]]))
  = ([(0, WList [0; 1])], None).
Proof.
  pose proof (Super2QLayer_forward_non_adjacent_pairs (new_Super2QLayer 4 false) PList
                (or_intror eq_refl) [PList [py_int 0; py_int 1]] [] 0 2
                ltac:(split; cbv; discriminate)) as H.
  cbn [app] in H. rewrite H. reflexivity.
Defined.
